(** * CometChat UI Kit integration demo: the UI-state logic, verified

    The repository is a landing page with collapsible review items
    (LandingPage.tsx), a demo chat screen (ChatDemo/ChatDemo.tsx) and a
    bootstrap script (main.tsx).  This development embeds

    - [LandingPage]: the [toggleItem] state updater, over a store of
      JavaScript [Set] objects so that copying versus mutating is visible;
    - [ChatDemo]: the four [useState] slots, the call listener installed
      by the mount effect, the click handlers and the rendered tree;
    - [Main]: the promise chain that initialises the SDK, looks up the
      session, logs in and mounts the application.

    SDK objects (users, groups, calls, conversations) are opaque to the
    application; only the fields the code reads are kept. *)

From Stdlib Require Import String ZArith DecimalString.
From Stdlib Require DecimalPos DecimalZ.
From stdpp Require Import base option list gmap strings.

Local Open Scope string_scope.

(** ** Promises

    The application never builds a promise of its own: it receives them
    from the SDK and attaches callbacks.  A promise is therefore given by
    the way it eventually settles. *)

Definition Error := string.

Inductive Settled (A : Type) : Type :=
| Fulfilled (a : A)
| Rejected (e : Error)
| Pending.
Arguments Fulfilled {A} a.
Arguments Rejected {A} e.
Arguments Pending {A}.

(** ** SDK entities *)

Record User := { getUid : string; getName : string }.
Record Group := { getGuid : string; getGroupName : string }.

(** What [instanceof] can tell about a value typed [User | Group]: the
    static type promises one of the two classes, the dynamic test may
    still fail for both. *)
Inductive Entity :=
| EUser (u : User)
| EGroup (g : Group)
| EOther.

Record Call := {
  getSessionId : string;
  getCallInitiator : User;
  getCallReceiver : Entity
}.

Record Conversation := {
  getConversationId : string;
  getConversationWith : Entity
}.

(** ** Landing page: collapsible review items *)

Module LandingPage.

(** [Set<string>] objects live in a store and are handled through
    references; [new Set(prev)] allocates, [add] and [delete] mutate. *)
Definition loc := nat.
Abbreviation heap := (gmap nat (gset string)).

(** Store computations; [None] is a dangling reference, which a
    JavaScript program cannot produce. *)
Definition Heap (A : Type) : Type := heap → option (A * heap).

#[local] Instance Heap_ret : MRet Heap := λ A a h, Some (a, h).
#[local] Instance Heap_bind : MBind Heap := λ A B f m h,
  match m h with
  | Some (a, h') => f a h'
  | None => None
  end.

(** [new Set(src)]: a fresh object holding the elements of [src]. *)
Definition set_new_from (src : loc) : Heap loc := λ h,
  match h !! src with
  | Some s => let l := fresh (dom h) in Some (l, <[l := s]> h)
  | None => None
  end.

(** [new Set()] *)
Definition set_new : Heap loc := λ h,
  let l := fresh (dom h) in Some (l, <[l := ∅]> h).

(** [s.has(x)] *)
Definition set_has (l : loc) (x : string) : Heap bool := λ h,
  match h !! l with
  | Some s => Some (bool_decide (x ∈ s), h)
  | None => None
  end.

(** [s.delete(x)], which answers whether [x] was present *)
Definition set_delete (l : loc) (x : string) : Heap bool := λ h,
  match h !! l with
  | Some s => Some (bool_decide (x ∈ s), <[l := s ∖ {[x]}]> h)
  | None => None
  end.

(** [s.add(x)], which answers the set itself *)
Definition set_add (l : loc) (x : string) : Heap loc := λ h,
  match h !! l with
  | Some s => Some (l, <[l := {[x]} ∪ s]> h)
  | None => None
  end.

(** The updater passed to [setOpenItems] by [toggleItem id]:
<<
    prev => { const newSet = new Set(prev);
              if (newSet.has(id)) newSet.delete(id); else newSet.add(id);
              return newSet; }
>> *)
Definition toggleItem_updater (id : string) (prev : loc) : Heap loc :=
  newSet ← set_new_from prev;
  present ← set_has newSet id;
  (if present : bool
   then _ ← set_delete newSet id; mret tt
   else _ ← set_add newSet id; mret tt);;
  mret newSet.

(** The component: [openItems] is the reference held by [useState]. *)
Record Page := { openItems : loc; store : heap }.

(** [useState<Set<string>>(new Set())] *)
Definition initial : Page :=
  match set_new ∅ with
  | Some (l, h) => {| openItems := l; store := h |}
  | None => {| openItems := 0; store := ∅ |}
  end.

(** [toggleItem id]: React replaces the state by the updater's result. *)
Definition toggleItem (id : string) (p : Page) : option Page :=
  match toggleItem_updater id (openItems p) (store p) with
  | Some (l, h) => Some {| openItems := l; store := h |}
  | None => None
  end.

(** [const isOpen = openItems.has(item.id)] in the render. *)
Definition isOpen (p : Page) (id : string) : option bool :=
  fst <$> set_has (openItems p) id (store p).

(** For the statements below: the elements a set has after [id] was
    toggled in it. *)
Definition toggled (id : string) (s : gset string) : gset string :=
  if decide (id ∈ s) then s ∖ {[id]} else {[id]} ∪ s.

End LandingPage.

(** ** Demo screen *)

Module ChatDemo.

(** The four [useState] slots; [undefined] is [None]. *)
Record State := {
  selectedUser : option User;
  selectedGroup : option Group;
  selectedCall : option Call;
  outgoingCall : option Call
}.

Definition initial : State :=
  {| selectedUser := None; selectedGroup := None;
     selectedCall := None; outgoingCall := None |}.

(** A call of one of the four state setters.  A handler does not read
    the slots; it only queues setter calls, which React applies in the
    order they were made. *)
Inductive Update :=
| SetSelectedUser (v : option User)
| SetSelectedGroup (v : option Group)
| SetSelectedCall (v : option Call)
| SetOutgoingCall (v : option Call).

Definition apply_update (st : State) (u : Update) : State :=
  match u with
  | SetSelectedUser v =>
      {| selectedUser := v; selectedGroup := selectedGroup st;
         selectedCall := selectedCall st; outgoingCall := outgoingCall st |}
  | SetSelectedGroup v =>
      {| selectedUser := selectedUser st; selectedGroup := v;
         selectedCall := selectedCall st; outgoingCall := outgoingCall st |}
  | SetSelectedCall v =>
      {| selectedUser := selectedUser st; selectedGroup := selectedGroup st;
         selectedCall := v; outgoingCall := outgoingCall st |}
  | SetOutgoingCall v =>
      {| selectedUser := selectedUser st; selectedGroup := selectedGroup st;
         selectedCall := selectedCall st; outgoingCall := v |}
  end.

(** The state after React has processed a handler's queue. *)
Definition commit (q : list Update) (st : State) : State :=
  foldl apply_update st q.

(** *** The call listener *)

Record CallListener := {
  onOutgoingCallAccepted : list Update;
  onOutgoingCallRejected : list Update;
  onIncomingCallCancelled : list Update;
  onCallEndedMessageReceived : list Update
}.

(** The object built by [new CometChat.CallListener({...})] in the mount
    effect.  The third callback has an empty body. *)
Definition callListener : CallListener := {|
  onOutgoingCallAccepted := [SetOutgoingCall None];
  onOutgoingCallRejected := [SetOutgoingCall None];
  onIncomingCallCancelled := [];
  onCallEndedMessageReceived := [SetOutgoingCall None]
|}.

(** The four events the listener subscribes to, and the callback the
    SDK invokes for each. *)
Inductive CallEvent :=
| OutgoingCallAccepted
| OutgoingCallRejected
| IncomingCallCancelled
| CallEndedMessageReceived.

Definition dispatch (l : CallListener) (ev : CallEvent) : list Update :=
  match ev with
  | OutgoingCallAccepted => onOutgoingCallAccepted l
  | OutgoingCallRejected => onOutgoingCallRejected l
  | IncomingCallCancelled => onIncomingCallCancelled l
  | CallEndedMessageReceived => onCallEndedMessageReceived l
  end.

(** *** The mount effect *)

(** Calls made into the SDK's listener registry. *)
Inductive SdkCall :=
| AddCallListener (listenerID : string) (l : CallListener)
| RemoveCallListener (listenerID : string).

(** ["CALL_LISTENER_" + Date.now()]: the clock value is an integer
    number of milliseconds, printed in decimal. *)
Definition number_to_string (n : Z) : string :=
  NilZero.string_of_int (Z.to_int n).

Definition make_listenerID (now : Z) : string :=
  "CALL_LISTENER_" ++ number_to_string now.

(** What running an effect yields: the calls it made, and the cleanup
    closure it returned, which React keeps until unmount. *)
Record Effect := {
  performed : list SdkCall;
  cleanup : unit → list SdkCall
}.

(** [useEffect(() => { ... }, [])]; [now] is what [Date.now()] answers. *)
Definition useEffect (now : Z) : Effect :=
  let listenerID := make_listenerID now in
  {| performed := [AddCallListener listenerID callListener];
     cleanup := λ _, [RemoveCallListener listenerID] |}.

(** The SDK keeps call listeners in a table keyed by identifier. *)
Definition sdk_step (reg : gmap string CallListener) (c : SdkCall)
  : gmap string CallListener :=
  match c with
  | AddCallListener i l => <[i := l]> reg
  | RemoveCallListener i => delete i reg
  end.

Definition sdk_run (cs : list SdkCall) (reg : gmap string CallListener)
  : gmap string CallListener :=
  foldl sdk_step reg cs.

(** A mounted screen: the registry as the effect left it, and the
    pending cleanup. *)
Record Mounted := {
  registry : gmap string CallListener;
  on_unmount : unit → list SdkCall
}.

Definition mount (now : Z) (reg : gmap string CallListener) : Mounted :=
  let e := useEffect now in
  {| registry := sdk_run (performed e) reg; on_unmount := cleanup e |}.

Definition unmount (m : Mounted) : gmap string CallListener :=
  sdk_run (on_unmount m tt) (registry m).

(** *** Click handlers *)

(** The callback given to [CometChat.getLoggedinUser().then]. *)
Definition handleCallLogClick_then (call : Call) (loggedInUser : option User)
  : list Update :=
  let callInitiator := getCallInitiator call in
  let callReceiver := getCallReceiver call in
  (if match loggedInUser with
      | Some me => String.eqb (getUid callInitiator) (getUid me)
      | None => false
      end
   then
     match callReceiver with
     | EUser r => [SetSelectedUser (Some r); SetSelectedGroup None]
     | EGroup g => [SetSelectedUser None; SetSelectedGroup (Some g)]
     | EOther => []
     end
   else [SetSelectedUser (Some callInitiator); SetSelectedGroup None])
  ++ [SetSelectedCall (Some call)].

(** [handleCallLogClick]: nothing is attached for a rejected lookup. *)
Definition handleCallLogClick (call : Call)
    (session : Settled (option User)) : list Update :=
  match session with
  | Fulfilled loggedInUser => handleCallLogClick_then call loggedInUser
  | Rejected _ => []
  | Pending => []
  end.

(** What the selector can hand to [onSelectorItemClicked]. *)
Inductive Item :=
| ItemUser (u : User)
| ItemGroup (g : Group)
| ItemConversation (c : Conversation)
| ItemCall (c : Call)
| ItemOther.

Definition item_of_entity (e : Entity) : Item :=
  match e with
  | EUser u => ItemUser u
  | EGroup g => ItemGroup g
  | EOther => ItemOther
  end.

Definition onSelectorItemClicked (session : Settled (option User))
    (activeItem : Item) : list Update :=
  let item :=
    match activeItem with
    | ItemConversation c => item_of_entity (getConversationWith c)
    | _ => activeItem
    end in
  match item with
  | ItemUser u =>
      [SetSelectedUser (Some u); SetSelectedCall None; SetSelectedGroup None]
  | ItemGroup g =>
      [SetSelectedUser None; SetSelectedGroup (Some g); SetSelectedCall None]
  | ItemCall c => handleCallLogClick c session
  | ItemConversation _ | ItemOther => []
  end.

(** *** Rendering *)

#[local] Set Warnings "-register-all".
Inductive Element :=
| Div (className : string) (children : list Element)
| Span (className : string) (text : string)
| P (className : string) (text : string)
| Text (s : string)
| CometChatIncomingCall
| CometChatOutgoingCall (call : Call)
| CometChatSelector
| CometChatMessageHeader (user : option User) (group : option Group)
| CometChatMessageList (user : option User) (group : option Group)
| CometChatMessageComposer (user : option User) (group : option Group).

(** Truthiness of a slot: an object is truthy, [undefined] is not. *)
Definition truthy {A} (o : option A) : bool :=
  match o with Some _ => true | None => false end.

Definition call_hint : string :=
  "Click on the user/group in the conversation to chat or use the call buttons in the header to call.".

(** The conditional at the end of the JSX. *)
Definition messages_pane (st : State) : Element :=
  if truthy (selectedUser st) || truthy (selectedGroup st) then
    Div "messages-wrapper"
      [CometChatMessageHeader (selectedUser st) (selectedGroup st);
       CometChatMessageList (selectedUser st) (selectedGroup st);
       CometChatMessageComposer (selectedUser st) (selectedGroup st)]
  else if truthy (selectedCall st) then
    Div "empty-conversation"
      [Div "call-info"
         [Span "call-icon" "📞";
          P "" "Call selected from history";
          P "call-hint" call_hint]]
  else
    Div "empty-conversation" [Text "Select Conversation to start"].

Definition render (st : State) : Element :=
  Div "chat-app-container"
    ([CometChatIncomingCall]
     ++ match outgoingCall st with
        | Some c => [CometChatOutgoingCall c]
        | None => []
        end
     ++ [Div "conversations-with-messages"
           [Div "conversations-wrapper" [CometChatSelector];
            messages_pane st]]).

(** The three views of the right-hand pane, recognised in a tree by
    what they show. *)
Inductive View := ConversationView | CallPlaceholder | EmptyPrompt.

Definition has_text (t : string) (e : Element) : bool :=
  match e with
  | Span _ s | P _ s | Text s => String.eqb s t
  | _ => false
  end.

Definition is_message_component (e : Element) : bool :=
  match e with
  | CometChatMessageHeader _ _ | CometChatMessageList _ _
  | CometChatMessageComposer _ _ => true
  | _ => false
  end.

Definition view_of (e : Element) : option View :=
  match e with
  | Div _ cs =>
      if existsb is_message_component cs then Some ConversationView
      else if existsb (has_text "Call selected from history") cs
      then Some CallPlaceholder
      else if existsb (has_text "Select Conversation to start") cs
      then Some EmptyPrompt
      else None
  | _ => None
  end.

(** All views shown anywhere in a tree. *)
Fixpoint views (e : Element) : list View :=
  match view_of e with
  | Some v => [v]
  | None =>
      match e with
      | Div _ cs => List.flat_map views cs
      | _ => []
      end
  end.

(** *** Sample objects for concrete runs *)

Definition alice : User := {| getUid := "cometchat-uid-1"; getName := "Alice" |}.
Definition bob : User := {| getUid := "cometchat-uid-2"; getName := "Bob" |}.
Definition hikers : Group :=
  {| getGuid := "cometchat-guid-1"; getGroupName := "Hikers" |}.
Definition call_to (initiator : User) (receiver : Entity) : Call :=
  {| getSessionId := "v1.in.1672583cf19efbc77.1";
     getCallInitiator := initiator; getCallReceiver := receiver |}.
Definition busy : State :=
  {| selectedUser := Some bob; selectedGroup := Some hikers;
     selectedCall := None; outgoingCall := Some (call_to alice (EUser bob)) |}.

End ChatDemo.

(** ** Bootstrap script *)

Module Main.

(** What the script does to the outside world. *)
Inductive LogArg :=
| AStr (s : string)
| AError (e : Error)
| AUserObject (user : User).

Inductive Effect :=
| ConsoleLog (args : list LogArg)
| ConsoleError (args : list LogArg)
| RenderApp.

(** Callbacks run for their effects: a result and the effects made. *)
Definition IO (A : Type) : Type := A * list Effect.

#[local] Instance IO_ret : MRet IO := λ A a, (a, []).
#[local] Instance IO_bind : MBind IO := λ A B f m,
  let r := f (fst m) in (fst r, (snd m ++ snd r)%list).

Definition perform (e : Effect) : IO unit := (tt, [e]).
Definition effects {A} (m : IO A) : list Effect := snd m.

(** [p.then(f)]: [f] runs when [p] is fulfilled; a rejection passes
    through to the derived promise. *)
Definition then_ {A B} (p : Settled A) (f : A → IO B) : IO (Settled B) :=
  match p with
  | Fulfilled a => b ← f a; mret (Fulfilled b)
  | Rejected e => mret (Rejected e)
  | Pending => mret Pending
  end.

(** [p.catch(g)]: [g] runs when [p] is rejected. *)
Definition catch_ {A} (p : Settled A) (g : Error → IO A) : IO (Settled A) :=
  match p with
  | Rejected e => a ← g e; mret (Fulfilled a)
  | Fulfilled a => mret (Fulfilled a)
  | Pending => mret Pending
  end.

Definition UID : string := "cometchat-uid-1".

(** [createRoot(document.getElementById('root')!).render(...)] *)
Definition mountApp : IO unit := perform RenderApp.

(** [CometChatUIKit.login(UID).then(...).catch(console.log)] *)
Definition login_chain (login : string → Settled User) : IO (Settled unit) :=
  p ← then_ (login UID) (λ user,
         perform (ConsoleLog [AStr "Login Successful:"; AUserObject user]);;
         mountApp);
  catch_ p (λ e, perform (ConsoleLog [AError e])).

(** The callback of [getLoggedinUser().then]. *)
Definition on_session (login : string → Settled User) (user : option User)
  : IO unit :=
  match user with
  | None => _ ← login_chain login; mret tt
  | Some _ => mountApp
  end.

(** The callback of [init(...).then]: the promise derived from the
    session lookup is neither returned nor given a [catch]. *)
Definition on_init (getLoggedinUser : Settled (option User))
    (login : string → Settled User) (_ : unit) : IO unit :=
  perform (ConsoleLog [AStr "CometChat UI Kit initialized successfully."]);;
  _ ← then_ getLoggedinUser (on_session login);
  mret tt.

(** The whole script, given how the three SDK promises settle. *)
Definition main (init : Settled unit)
    (getLoggedinUser : Settled (option User))
    (login : string → Settled User) : IO (Settled unit) :=
  p ← then_ init (on_init getLoggedinUser login);
  catch_ p (λ error,
    perform (ConsoleError
      [AStr "CometChat UI Kit initialization failed:"; AError error])).

(** A step of the chain that is reached and rejects with [e]. *)
Inductive fails_with (init : Settled unit)
    (getLoggedinUser : Settled (option User))
    (login : string → Settled User) (e : Error) : Prop :=
| init_fails : init = Rejected e → fails_with init getLoggedinUser login e
| session_fails :
    init = Fulfilled tt → getLoggedinUser = Rejected e →
    fails_with init getLoggedinUser login e
| login_fails :
    init = Fulfilled tt → getLoggedinUser = Fulfilled None →
    login UID = Rejected e → fails_with init getLoggedinUser login e.

(** An error is in the diagnostic log when some console call has it
    among its arguments. *)
Definition logs_error (e : Error) (ef : Effect) : Prop :=
  match ef with
  | ConsoleLog args | ConsoleError args => AError e ∈ args
  | RenderApp => False
  end.

Definition logged (e : Error) (t : list Effect) : Prop :=
  Exists (logs_error e) t.

Definition mounted (t : list Effect) : Prop := RenderApp ∈ t.

End Main.

(** ** Demo screen: the remaining handlers and the event loop *)

Module ChatDemoEvents.
Import ChatDemo.

(** [CometChat.CALL_STATUS.REJECTED], the only status the screen uses. *)
Inductive CallStatus := CALL_STATUS_REJECTED.

(** What a handler of the call components does: a call into the SDK or
    a state setter. *)
Inductive Action :=
| RejectCall (sessionId : string) (status : CallStatus)
| SetState (u : Update).

(** [onDecline] of [CometChatIncomingCall]:
<<
    (call) => { CometChat.rejectCall(call.getSessionId(),
                                     CometChat.CALL_STATUS.REJECTED);
                setOutgoingCall(undefined) }
>> *)
Definition onDecline (call : Call) : list Action :=
  [RejectCall (getSessionId call) CALL_STATUS_REJECTED;
   SetState (SetOutgoingCall None)].

(** [onCallCanceled] of [CometChatOutgoingCall]. *)
Definition onCallCanceled : list Update := [SetOutgoingCall None].

(** The setter calls among a handler's actions, in order. *)
Definition state_updates (acts : list Action) : list Update :=
  omap (λ a, match a with SetState u => Some u | RejectCall _ _ => None end)
    acts.

(** Everything that can make the screen's state change.  A click on a
    call-log entry takes effect when the session lookup settles; its
    callback reads no slot, so the click is placed at that moment. *)
Inductive Event :=
| SelectorItemClicked (session : Settled (option User)) (activeItem : Item)
| CallEventReceived (ev : CallEvent)
| IncomingCallDeclined (call : Call)
| OutgoingCallCanceled.

Definition updates_of (e : Event) : list Update :=
  match e with
  | SelectorItemClicked session activeItem =>
      onSelectorItemClicked session activeItem
  | CallEventReceived ev => dispatch callListener ev
  | IncomingCallDeclined call => state_updates (onDecline call)
  | OutgoingCallCanceled => onCallCanceled
  end.

Definition step (st : State) (e : Event) : State :=
  commit (updates_of e) st.

(** The state after a history of events, starting from the state the
    [useState] calls create. *)
Definition run (es : list Event) : State := foldl step initial es.

(** The SDK types a call's receiver as a user or a group. *)
Definition typed_receiver (c : Call) : bool :=
  match getCallReceiver c with
  | EUser _ | EGroup _ => true
  | EOther => false
  end.

Definition typed_event (e : Event) : bool :=
  match e with
  | SelectorItemClicked _ (ItemCall c) => typed_receiver c
  | _ => true
  end.

(** Whether a tree shows the outgoing-call component anywhere. *)
Fixpoint shows_outgoing_call (e : Element) : bool :=
  match e with
  | CometChatOutgoingCall _ => true
  | Div _ cs => existsb shows_outgoing_call cs
  | _ => false
  end.


End ChatDemoEvents.

(** ** Landing page: click histories, item data and description markup *)

Module LandingPageView.
Import LandingPage.

(** A history of clicks on item headers, each calling [toggleItem]. *)
Fixpoint clicks (ids : list string) (p : Page) : option Page :=
  match ids with
  | [] => Some p
  | id :: rest => p' ← toggleItem id p; clicks rest p'
  end.

(** How often [id] was clicked in a history. *)
Definition click_count (id : string) (ids : list string) : nat :=
  length (filter (λ x, x = id) ids).

(** The [id] fields of [goodDX], [improvementsDX] and [uxSuggestions],
    in source order. *)
Definition goodDX_ids : list string :=
  ["good-1"; "good-2"; "good-3"; "good-4"; "good-5"; "good-6"; "good-7";
   "good-8"].
Definition improvementsDX_ids : list string :=
  ["improve-0"; "improve-1"; "improve-2"; "improve-3"; "improve-4";
   "improve-5"].
Definition uxSuggestions_ids : list string :=
  ["ux-1"; "ux-2"; "ux-3"; "ux-4"].

(** [Object.entries(sections)]: keys in insertion order, each with the
    identifiers of its items. *)
Definition section_entries : list (string * list string) :=
  [("good", goodDX_ids);
   ("improvements", improvementsDX_ids);
   ("ux", uxSuggestions_ids)].

(** The items the page renders, section after section. *)
Definition rendered_ids : list string :=
  concat (map snd section_entries).

(** [openItems.has(item.id)] for every rendered item, in page order. *)
Definition open_flags (p : Page) : option (list (string * bool)) :=
  mapM (λ id, b ← isOpen p id; Some (id, b)) rendered_ids.

(** The optional fields of a [DXItem] besides [id], [title] and
    [description]. *)
Record Image := { src : string; caption : string }.

Record DXItem := {
  id : string;
  title : string;
  description : string;
  example : option string;
  image : option string;
  images : option (list Image);
  codeBlock : option string
}.

(** The optional blocks below an item's description. *)
Inductive Block :=
| ImageBlock (src : string)
| ImagesBlock (imgs : list Image)
| CodeBlock (code : string)
| ExampleBlock (text : string).

(** [{x && (...)}] for a string field: rendered when the field is
    defined and not the empty string. *)
Definition when_string (field : option string) (mk : string → Block)
  : list Block :=
  match field with
  | Some "" | None => []
  | Some s => [mk s]
  end.

(** The same for an array field: every array is truthy. *)
Definition when_array {A} (field : option (list A)) (mk : list A → Block)
  : list Block :=
  match field with
  | Some l => [mk l]
  | None => []
  end.

(** The blocks of an item, in JSX order: image, images, code block,
    example. *)
Definition content_blocks (item : DXItem) : list Block :=
  when_string (image item) ImageBlock
  ++ when_array (images item) ImagesBlock
  ++ when_string (codeBlock item) CodeBlock
  ++ when_string (example item) ExampleBlock.

(** *** [description.replace(/\*\*(.*?)\*\*/g, '<strong>$1</strong>')]

    A JavaScript string is a sequence of UTF-16 code units. *)

Definition star : N := 42.

(** What [.] does not match: LF, CR, U+2028 and U+2029. *)
Definition is_line_terminator (c : N) : bool :=
  (c =? 10)%N || (c =? 13)%N || (c =? 8232)%N || (c =? 8233)%N.

(** The code units of an ASCII literal. *)
Definition units (s : string) : list N :=
  map Ascii.N_of_ascii (list_ascii_of_string s).

(** [\*\*] at the head of [s]: what follows it. *)
Definition marker (s : list N) : option (list N) :=
  match s with
  | a :: b :: rest => if (a =? star)%N && (b =? star)%N then Some rest else None
  | _ => None
  end.

(** [(.*?)\*\*] at the head of [s]: the shortest run of units other than
    line terminators that is followed by a marker, and what follows that
    marker. *)
Fixpoint lazy_group (s : list N) : option (list N * list N) :=
  match marker s with
  | Some rest => Some ([], rest)
  | None =>
      match s with
      | [] => None
      | c :: s' =>
          if is_line_terminator c then None
          else '(group, rest) ← lazy_group s'; Some (c :: group, rest)
      end
  end.

(** The whole pattern at the head of [s]. *)
Definition match_here (s : list N) : option (list N * list N) :=
  marker s ≫= lazy_group.

(** The global replacement: at each position, leftmost match first; a
    match is replaced and the scan resumes after it, otherwise one unit
    is copied.  Each round consumes at least one unit. *)
Fixpoint replace_from (fuel : nat) (s : list N) : list N :=
  match fuel, s with
  | 0, _ => s
  | _, [] => []
  | S fuel', c :: s' =>
      match match_here s with
      | Some (group, rest) =>
          units "<strong>" ++ group ++ units "</strong>"
          ++ replace_from fuel' rest
      | None => c :: replace_from fuel' s'
      end
  end.

Definition replace_bold (s : list N) : list N :=
  replace_from (length s) s.

(** No two adjacent asterisks anywhere in [s]. *)
Fixpoint marker_free (s : list N) : bool :=
  match s with
  | [] => true
  | _ :: s' => match marker s with Some _ => false | None => marker_free s' end
  end.

(** A unit [.] matches and that is no asterisk. *)
Definition plain (c : N) : bool :=
  negb (c =? star)%N && negb (is_line_terminator c).

End LandingPageView.

(** ** Bootstrap script: runs *)

Module MainRuns.
Import Main.

Definition is_render (ef : Effect) : bool :=
  match ef with RenderApp => true | _ => false end.

Definition is_console_error (ef : Effect) : bool :=
  match ef with ConsoleError _ => true | _ => false end.

(** How many times a run renders the application. *)
Definition renders (t : list Effect) : nat :=
  List.length (List.filter is_render t).

(** The message printed when initialisation succeeds. *)
Definition init_success : Effect :=
  ConsoleLog [AStr "CometChat UI Kit initialized successfully."].

(** A step of the chain that is reached and never settles. *)
Inductive stalls (init : Settled unit)
    (getLoggedinUser : Settled (option User))
    (login : string → Settled User) : Prop :=
| init_stalls : init = Pending → stalls init getLoggedinUser login
| session_stalls :
    init = Fulfilled tt → getLoggedinUser = Pending →
    stalls init getLoggedinUser login
| login_stalls :
    init = Fulfilled tt → getLoggedinUser = Fulfilled None →
    login UID = Pending → stalls init getLoggedinUser login.

(** Whether the chain gets as far as calling [login]. *)
Definition reaches_login (init : Settled unit)
    (getLoggedinUser : Settled (option User)) : bool :=
  match init, getLoggedinUser with
  | Fulfilled _, Fulfilled None => true
  | _, _ => false
  end.

End MainRuns.

(** * Properties *)

(** ** Landing page *)

Module LandingPageSpec.
Import LandingPage.

Lemma fresh_loc_unused (h : heap) : h !! fresh (dom h) = None.
Proof. apply not_elem_of_dom, is_fresh. Qed.

Lemma fresh_loc_ne (h : heap) (l : loc) (s : gset string) :
  h !! l = Some s → fresh (dom h) ≠ l.
Proof.
  intros Hl <-. by rewrite fresh_loc_unused in Hl.
Qed.

(** The updater always succeeds on a live reference, and its whole
    effect on the store is one new object. *)
Lemma toggleItem_updater_run (id : string) (prev : loc) (h : heap)
    (s : gset string) :
  h !! prev = Some s →
  toggleItem_updater id prev h
  = Some (fresh (dom h), <[fresh (dom h) := toggled id s]> h).
Proof.
  intros Hprev.
  unfold toggleItem_updater, mbind, Heap_bind, mret, Heap_ret.
  unfold set_new_from. rewrite Hprev. cbn beta iota zeta.
  unfold set_has at 1. rewrite lookup_insert_eq. cbn beta iota zeta.
  unfold toggled. case_bool_decide as Hin.
  - rewrite decide_True by done.
    unfold set_delete. rewrite lookup_insert_eq. cbn beta iota zeta.
    by rewrite insert_insert_eq.
  - rewrite decide_False by done.
    unfold set_add. rewrite lookup_insert_eq. cbn beta iota zeta.
    by rewrite insert_insert_eq.
Qed.

Lemma toggled_other (id id' : string) (s : gset string) :
  id ≠ id' → id' ∈ toggled id s ↔ id' ∈ s.
Proof.
  intros Hne. unfold toggled. case_decide.
  - rewrite elem_of_difference, elem_of_singleton. intuition congruence.
  - rewrite elem_of_union, elem_of_singleton. intuition congruence.
Qed.

Lemma toggled_twice (id : string) (s : gset string) :
  toggled id (toggled id s) = s.
Proof.
  unfold toggled. destruct (decide (id ∈ s)) as [Hin | Hout].
  - rewrite decide_False
      by (rewrite elem_of_difference, elem_of_singleton; intuition).
    apply set_eq. intros x.
    rewrite elem_of_union, elem_of_difference, elem_of_singleton.
    destruct (decide (x = id)) as [-> | Hx]; intuition.
  - rewrite decide_True
      by (rewrite elem_of_union, elem_of_singleton; intuition).
    apply set_eq. intros x.
    rewrite elem_of_difference, elem_of_union, elem_of_singleton.
    intuition congruence.
Qed.

Lemma isOpen_eq (p : Page) (id : string) (s : gset string) :
  store p !! openItems p = Some s →
  isOpen p id = Some (bool_decide (id ∈ s)).
Proof. intros Hs. unfold isOpen, set_has. by rewrite Hs. Qed.

Lemma isOpen_live (p : Page) (id : string) (b : bool) :
  isOpen p id = Some b →
  ∃ s, store p !! openItems p = Some s ∧ b = bool_decide (id ∈ s).
Proof.
  unfold isOpen, set_has. destruct (store p !! openItems p) as [s|] eqn:Hs.
  - cbn. intros [= <-]. by exists s.
  - cbn. discriminate.
Qed.

Lemma toggleItem_run (id : string) (p : Page) (s : gset string) :
  store p !! openItems p = Some s →
  toggleItem id p
  = Some {| openItems := fresh (dom (store p));
            store := <[fresh (dom (store p)) := toggled id s]> (store p) |}.
Proof.
  intros Hs. unfold toggleItem. by rewrite (toggleItem_updater_run _ _ _ s).
Qed.

(** C6. For an item that is closed (its identifier is not in the
    open-items set), toggling it twice succeeds and yields an open-items
    set in which the identifier is absent again: the item is back in its
    closed state.  Moreover the set after the two toggles has the same
    elements as the original one. *)
Theorem toggle_twice_restores_closed (id : string) (p : Page) :
  isOpen p id = Some false →
  ∃ p1 p2,
    toggleItem id p = Some p1 ∧
    isOpen p1 id = Some true ∧
    toggleItem id p1 = Some p2 ∧
    isOpen p2 id = Some false ∧
    store p2 !! openItems p2 = store p !! openItems p.
Proof.
  intros Hclosed.
  destruct (isOpen_live _ _ _ Hclosed) as (s & Hs & Hb).
  assert (Hout : id ∉ s).
  { symmetry in Hb. by apply bool_decide_eq_false in Hb. }
  eexists _, _. split; [by apply (toggleItem_run _ _ s)|].
  split.
  { erewrite isOpen_eq by (cbn; apply lookup_insert_eq).
    f_equal. apply bool_decide_eq_true. unfold toggled.
    rewrite decide_False by done.
    rewrite elem_of_union, elem_of_singleton. by left. }
  split.
  { apply toggleItem_run. cbn. apply lookup_insert_eq. }
  cbn. rewrite lookup_insert_eq, toggled_twice. split; [|done].
  erewrite isOpen_eq by (cbn; apply lookup_insert_eq).
  f_equal. by apply bool_decide_eq_false.
Qed.

Lemma toggle_twice_restores_closed_witness :
  isOpen initial "improve-0" = Some false ∧
  ∃ p1 p2,
    toggleItem "improve-0" initial = Some p1 ∧
    isOpen p1 "improve-0" = Some true ∧
    toggleItem "improve-0" p1 = Some p2 ∧
    isOpen p2 "improve-0" = Some false ∧
    store p2 !! openItems p2 = store initial !! openItems initial.
Proof.
  assert (H : isOpen initial "improve-0" = Some false) by (vm_compute; reflexivity).
  split; [exact H | exact (toggle_twice_restores_closed "improve-0" initial H)].
Defined.

(** C8. Toggling [id] on a live open-items set returns a reference to a
    newly allocated set object, different from the one it was given; the
    object it was given still holds exactly the elements it held; every
    other object of the store is untouched; and for every identifier
    [id'] other than [id], membership in the new set equals membership
    in the original one. *)
Theorem toggle_frame (id id' : string) (prev : loc) (h : heap)
    (s : gset string) :
  id ≠ id' →
  h !! prev = Some s →
  ∃ newSet h' s',
    toggleItem_updater id prev h = Some (newSet, h') ∧
    h !! newSet = None ∧
    newSet ≠ prev ∧
    h' !! prev = Some s ∧
    (∀ l, l ≠ newSet → h' !! l = h !! l) ∧
    h' !! newSet = Some s' ∧
    (id' ∈ s' ↔ id' ∈ s) ∧
    fst <$> set_has newSet id' h' = fst <$> set_has prev id' h.
Proof.
  intros Hne Hprev.
  exists (fresh (dom h)), (<[fresh (dom h) := toggled id s]> h), (toggled id s).
  pose proof (fresh_loc_ne h prev s Hprev) as Hfresh.
  split; [by apply toggleItem_updater_run|].
  split; [apply fresh_loc_unused|].
  split; [done|].
  split; [by rewrite lookup_insert_ne|].
  split; [intros l Hl; by rewrite lookup_insert_ne|].
  split; [apply lookup_insert_eq|].
  split; [by apply toggled_other|].
  unfold set_has. rewrite lookup_insert_eq, Hprev. cbn.
  f_equal. apply bool_decide_ext. by apply toggled_other.
Qed.

Lemma toggle_frame_witness :
  ∃ newSet h' s',
    toggleItem_updater "good-1" 0 {[0 := {["good-2"]}]} = Some (newSet, h') ∧
    ({[0 := {["good-2"]}]} : heap) !! newSet = None ∧
    newSet ≠ 0 ∧
    h' !! 0 = Some {["good-2"]} ∧
    (∀ l, l ≠ newSet → h' !! l = ({[0 := {["good-2"]}]} : heap) !! l) ∧
    h' !! newSet = Some s' ∧
    ("good-2" ∈ s' ↔ "good-2" ∈ ({["good-2"]} : gset string)) ∧
    fst <$> set_has newSet "good-2" h'
    = fst <$> set_has 0 "good-2" {[0 := {["good-2"]}]}.
Proof.
  apply (toggle_frame "good-1" "good-2" 0 {[0 := {["good-2"]}]} {["good-2"]}).
  - discriminate.
  - vm_compute; reflexivity.
Defined.

End LandingPageSpec.

(** ** Demo screen *)

Module ChatDemoSpec.
Import ChatDemo.

(** *** The call listener *)

(** Setting the outgoing-call slot touches no selection slot. *)
Lemma clear_outgoing_frame (st : State) :
  commit [SetOutgoingCall None] st
  = {| selectedUser := selectedUser st; selectedGroup := selectedGroup st;
       selectedCall := selectedCall st; outgoingCall := None |}.
Proof. reflexivity. Qed.


(** *** The mount effect *)

(** C7. Running the mount effect makes exactly one SDK call, which
    registers the screen's call listener under an identifier; the
    cleanup function the effect returns makes exactly one SDK call,
    which deregisters that same identifier.  In the SDK's table the
    listener is therefore present while the screen is mounted and gone
    once it is unmounted, every other entry being left alone. *)
Theorem listener_registered_once_released_on_unmount (now : Z) :
  ∃ listenerID,
    listenerID = make_listenerID now ∧
    performed (useEffect now) = [AddCallListener listenerID callListener] ∧
    cleanup (useEffect now) tt = [RemoveCallListener listenerID] ∧
    ∀ reg : gmap string CallListener,
      registry (mount now reg) !! listenerID = Some callListener ∧
      unmount (mount now reg) !! listenerID = None ∧
      ∀ other, other ≠ listenerID →
        unmount (mount now reg) !! other = reg !! other.
Proof.
  exists (make_listenerID now). repeat split.
  - cbn. apply lookup_insert_eq.
  - cbn. apply lookup_delete_eq.
  - intros other Hother. cbn.
    rewrite lookup_delete_ne by done. by rewrite lookup_insert_ne.
Qed.

Lemma listener_registered_once_released_on_unmount_witness :
  performed (useEffect 1700000000123)
  = [AddCallListener "CALL_LISTENER_1700000000123" callListener] ∧
  cleanup (useEffect 1700000000123) tt
  = [RemoveCallListener "CALL_LISTENER_1700000000123"] ∧
  unmount (mount 1700000000123 ∅) !! "CALL_LISTENER_1700000000123" = None.
Proof.
  destruct (listener_registered_once_released_on_unmount 1700000000123)
    as (i & -> & Hadd & Hrm & Hreg).
  split; [exact Hadd|]. split; [exact Hrm|].
  destruct (Hreg ∅) as (_ & Hgone & _). exact Hgone.
Defined.

(** *** Click handlers *)

Lemma uid_test_true (a b : User) :
  getUid a = getUid b → String.eqb (getUid a) (getUid b) = true.
Proof. intros ->. apply String.eqb_refl. Qed.

Lemma uid_test_false (a b : User) :
  getUid a ≠ getUid b → String.eqb (getUid a) (getUid b) = false.
Proof. intros Hne. by apply String.eqb_neq. Qed.

(** The three selection slots after a queue that sets user, group and
    call in this order. *)
Lemma commit_user_group_call (u : option User) (g : option Group)
    (c : option Call) (st : State) :
  commit [SetSelectedUser u; SetSelectedGroup g; SetSelectedCall c] st
  = {| selectedUser := u; selectedGroup := g; selectedCall := c;
       outgoingCall := outgoingCall st |}.
Proof. reflexivity. Qed.

(** C2. A call-log entry is clicked and the session lookup answers a
    logged-in user.  If the call's initiator has that user's identifier
    and the receiver is a user, the setter calls are: user slot to the
    receiver, group slot to undefined, then call slot to the call; if
    the receiver is a group: user slot to undefined, group slot to the
    receiver, then call slot to the call.  If the initiator has another
    identifier: user slot to the initiator, group slot to undefined,
    then call slot to the call.  In each case the call slot is set last
    and the slots end up with these values. *)
Theorem call_log_click_with_session (call : Call) (me : User) (st : State) :
  let q := handleCallLogClick call (Fulfilled (Some me)) in
  (getUid (getCallInitiator call) = getUid me →
     (∀ r, getCallReceiver call = EUser r →
        q = [SetSelectedUser (Some r); SetSelectedGroup None;
             SetSelectedCall (Some call)] ∧
        selectedUser (commit q st) = Some r ∧
        selectedGroup (commit q st) = None ∧
        selectedCall (commit q st) = Some call) ∧
     (∀ g, getCallReceiver call = EGroup g →
        q = [SetSelectedUser None; SetSelectedGroup (Some g);
             SetSelectedCall (Some call)] ∧
        selectedUser (commit q st) = None ∧
        selectedGroup (commit q st) = Some g ∧
        selectedCall (commit q st) = Some call)) ∧
  (getUid (getCallInitiator call) ≠ getUid me →
     q = [SetSelectedUser (Some (getCallInitiator call));
          SetSelectedGroup None; SetSelectedCall (Some call)] ∧
     selectedUser (commit q st) = Some (getCallInitiator call) ∧
     selectedGroup (commit q st) = None ∧
     selectedCall (commit q st) = Some call).
Proof.
  cbn zeta. unfold handleCallLogClick, handleCallLogClick_then. split.
  - intros Hsame. rewrite (uid_test_true _ _ Hsame).
    split; intros x Hrecv; rewrite Hrecv; by repeat split.
  - intros Hdiff. rewrite (uid_test_false _ _ Hdiff). by repeat split.
Qed.

Lemma call_log_click_with_session_witness :
  (selectedUser (commit (handleCallLogClick (call_to alice (EUser bob))
                           (Fulfilled (Some alice))) busy) = Some bob ∧
   selectedGroup (commit (handleCallLogClick (call_to alice (EUser bob))
                            (Fulfilled (Some alice))) busy) = None) ∧
  (selectedUser (commit (handleCallLogClick (call_to alice (EGroup hikers))
                           (Fulfilled (Some alice))) busy) = None ∧
   selectedGroup (commit (handleCallLogClick (call_to alice (EGroup hikers))
                            (Fulfilled (Some alice))) busy) = Some hikers) ∧
  (selectedUser (commit (handleCallLogClick (call_to bob (EGroup hikers))
                           (Fulfilled (Some alice))) busy) = Some bob ∧
   selectedGroup (commit (handleCallLogClick (call_to bob (EGroup hikers))
                            (Fulfilled (Some alice))) busy) = None).
Proof.
  split; [|split].
  - destruct (call_log_click_with_session
                (call_to alice (EUser bob)) alice busy) as [Hsame _].
    destruct (Hsame eq_refl) as [Huser _].
    destruct (Huser bob eq_refl) as (_ & Hu & Hg & _). by split.
  - destruct (call_log_click_with_session
                (call_to alice (EGroup hikers)) alice busy) as [Hsame _].
    destruct (Hsame eq_refl) as [_ Hgroup].
    destruct (Hgroup hikers eq_refl) as (_ & Hu & Hg & _). by split.
  - destruct (call_log_click_with_session
                (call_to bob (EGroup hikers)) alice busy) as [_ Hdiff].
    destruct Hdiff as (_ & Hu & Hg & _); [discriminate | by split].
Defined.

(** C9. When the session lookup answers null, the click on a call-log
    entry is handled as in the non-matching-initiator case, whatever
    the receiver is: user slot to the initiator, group slot to
    undefined, then call slot to the call; and these are the very
    setter calls made for a logged-in user whose identifier differs
    from the initiator's. *)
Theorem call_log_click_without_session (call : Call) (st : State) :
  let q := handleCallLogClick call (Fulfilled None) in
  q = [SetSelectedUser (Some (getCallInitiator call));
       SetSelectedGroup None; SetSelectedCall (Some call)] ∧
  selectedUser (commit q st) = Some (getCallInitiator call) ∧
  selectedGroup (commit q st) = None ∧
  selectedCall (commit q st) = Some call ∧
  ∀ me, getUid (getCallInitiator call) ≠ getUid me →
    handleCallLogClick call (Fulfilled (Some me)) = q.
Proof.
  cbn zeta. repeat split.
  intros me Hdiff. unfold handleCallLogClick, handleCallLogClick_then.
  by rewrite (uid_test_false _ _ Hdiff).
Qed.

Lemma call_log_click_without_session_witness :
  commit (handleCallLogClick (call_to bob (EGroup hikers)) (Fulfilled None))
    busy
  = {| selectedUser := Some bob; selectedGroup := None;
       selectedCall := Some (call_to bob (EGroup hikers));
       outgoingCall := outgoingCall busy |} ∧
  handleCallLogClick (call_to bob (EGroup hikers)) (Fulfilled (Some alice))
  = handleCallLogClick (call_to bob (EGroup hikers)) (Fulfilled None).
Proof.
  destruct (call_log_click_without_session (call_to bob (EGroup hikers)) busy)
    as (Hq & _ & _ & _ & Hsame).
  split.
  - rewrite Hq. apply commit_user_group_call.
  - apply Hsame. discriminate.
Defined.

(** C10. When the logged-in user's identifier equals the initiator's
    and the receiver is neither a user nor a group, the only setter
    call is the one setting the call slot to the clicked call: the user
    slot and the group slot keep whatever they held. *)
Theorem call_log_click_unknown_receiver (call : Call) (me : User)
    (st : State) :
  getUid (getCallInitiator call) = getUid me →
  getCallReceiver call = EOther →
  let q := handleCallLogClick call (Fulfilled (Some me)) in
  q = [SetSelectedCall (Some call)] ∧
  selectedUser (commit q st) = selectedUser st ∧
  selectedGroup (commit q st) = selectedGroup st ∧
  selectedCall (commit q st) = Some call.
Proof.
  intros Hsame Hrecv. cbn zeta.
  unfold handleCallLogClick, handleCallLogClick_then.
  rewrite (uid_test_true _ _ Hsame), Hrecv. by repeat split.
Qed.

Lemma call_log_click_unknown_receiver_witness :
  getUid (getCallInitiator (call_to alice EOther)) = getUid alice ∧
  getCallReceiver (call_to alice EOther) = EOther ∧
  selectedUser (commit (handleCallLogClick (call_to alice EOther)
                          (Fulfilled (Some alice))) busy) = Some bob ∧
  selectedGroup (commit (handleCallLogClick (call_to alice EOther)
                           (Fulfilled (Some alice))) busy) = Some hikers ∧
  selectedCall (commit (handleCallLogClick (call_to alice EOther)
                          (Fulfilled (Some alice))) busy)
  = Some (call_to alice EOther).
Proof.
  split; [reflexivity|]. split; [reflexivity|].
  destruct (call_log_click_unknown_receiver (call_to alice EOther) alice busy
              eq_refl eq_refl) as (_ & Hu & Hg & Hc).
  split; [exact Hu|]. split; [exact Hg | exact Hc].
Defined.

(** C3. Whatever the slots hold, selecting a user sets the user slot to
    that user and leaves the group slot and the call slot undefined;
    selecting a group sets the group slot to that group and leaves the
    user slot and the call slot undefined.  The outgoing-call slot is
    not touched, and a conversation item is handled as the user or
    group the conversation is with. *)
Theorem select_user_or_group (session : Settled (option User)) (st : State) :
  (∀ u, commit (onSelectorItemClicked session (ItemUser u)) st
        = {| selectedUser := Some u; selectedGroup := None;
             selectedCall := None; outgoingCall := outgoingCall st |}) ∧
  (∀ g, commit (onSelectorItemClicked session (ItemGroup g)) st
        = {| selectedUser := None; selectedGroup := Some g;
             selectedCall := None; outgoingCall := outgoingCall st |}) ∧
  (∀ cid u, onSelectorItemClicked session
              (ItemConversation
                 {| getConversationId := cid; getConversationWith := EUser u |})
            = onSelectorItemClicked session (ItemUser u)) ∧
  (∀ cid g, onSelectorItemClicked session
              (ItemConversation
                 {| getConversationId := cid; getConversationWith := EGroup g |})
            = onSelectorItemClicked session (ItemGroup g)).
Proof. by repeat split. Qed.

(** *** Rendering *)

(** The pane contributes its view and the rest of the tree none. *)
Lemma views_render (st : State) :
  views (render st) = views (messages_pane st).
Proof.
  destruct st as [[u|] [g|] [c|] [o|]]; reflexivity.
Qed.

(** C5. For every content of the slots the rendered tree shows exactly
    one view.  It is the conversation view exactly when the user slot
    or the group slot is populated, the call placeholder exactly when
    the call slot is populated and the user and group slots are both
    empty, and the empty-state prompt exactly when the three selection
    slots are empty. *)
Theorem exactly_one_view (st : State) :
  ∃ v,
    views (render st) = [v] ∧
    (v = ConversationView ↔
       is_Some (selectedUser st) ∨ is_Some (selectedGroup st)) ∧
    (v = CallPlaceholder ↔
       is_Some (selectedCall st) ∧
       selectedUser st = None ∧ selectedGroup st = None) ∧
    (v = EmptyPrompt ↔
       selectedUser st = None ∧ selectedGroup st = None ∧
       selectedCall st = None).
Proof.
  rewrite views_render. unfold messages_pane.
  destruct st as [[u|] [g|] [c|] o]; cbn;
    (eexists; split; [reflexivity|]);
    rewrite ?is_Some_alt; intuition discriminate.
Qed.

End ChatDemoSpec.

(** ** Bootstrap script *)

Module MainSpec.
Import Main.

Lemma main_init_rejected (e : Error) (session : Settled (option User))
    (login : string → Settled User) :
  effects (main (Rejected e) session login)
  = [ConsoleError [AStr "CometChat UI Kit initialization failed:"; AError e]].
Proof. reflexivity. Qed.

Lemma main_login_rejected (e : Error) (login : string → Settled User) :
  login UID = Rejected e →
  effects (main (Fulfilled tt) (Fulfilled None) login)
  = [ConsoleLog [AStr "CometChat UI Kit initialized successfully."];
     ConsoleLog [AError e]].
Proof.
  intros Hlogin. unfold main, on_init, on_session, login_chain.
  rewrite Hlogin. reflexivity.
Qed.

Lemma main_session_rejected (e : Error) (login : string → Settled User) :
  effects (main (Fulfilled tt) (Rejected e) login)
  = [ConsoleLog [AStr "CometChat UI Kit initialized successfully."]].
Proof. reflexivity. Qed.

(** A rejected initialisation is written to the console. *)
Lemma init_failure_logged (e : Error) (session : Settled (option User))
    (login : string → Settled User) :
  logged e (effects (main (Rejected e) session login)).
Proof.
  rewrite main_init_rejected. apply Exists_cons_hd. cbn.
  apply list_elem_of_further, list_elem_of_here.
Qed.

(** A rejected login is written to the console. *)
Lemma login_failure_logged (e : Error) (login : string → Settled User) :
  login UID = Rejected e →
  logged e (effects (main (Fulfilled tt) (Fulfilled None) login)).
Proof.
  intros Hlogin. rewrite (main_login_rejected e login Hlogin).
  apply Exists_cons_tl, Exists_cons_hd. cbn. apply list_elem_of_here.
Qed.

(** Whatever step rejects, the application is not rendered. *)
Lemma failure_never_mounts (init : Settled unit)
    (session : Settled (option User)) (login : string → Settled User)
    (e : Error) :
  fails_with init session login e →
  ¬ mounted (effects (main init session login)).
Proof.
  unfold mounted.
  intros [-> | -> -> | -> -> Hlogin].
  - rewrite main_init_rejected. rewrite list_elem_of_singleton. discriminate.
  - rewrite main_session_rejected. rewrite list_elem_of_singleton. discriminate.
  - rewrite (main_login_rejected e login Hlogin).
    rewrite !elem_of_cons, elem_of_nil.
    intros [Heq | [Heq | []]]; discriminate Heq.
Qed.

(** Refute a membership of [RenderApp] in an explicit list without it. *)
Ltac no_render H :=
  repeat (apply elem_of_cons in H as [H | H]; [discriminate H|]);
  apply elem_of_nil in H; exact H.

(** Find [RenderApp] in an explicit list. *)
Ltac render_found :=
  repeat first [apply list_elem_of_here | apply list_elem_of_further].

(** The application is rendered exactly when the chain runs through. *)
Lemma mounted_iff (init : Settled unit) (session : Settled (option User))
    (login : string → Settled User) :
  mounted (effects (main init session login)) ↔
  init = Fulfilled tt ∧
  ((∃ u, session = Fulfilled (Some u)) ∨
   (session = Fulfilled None ∧ ∃ u, login UID = Fulfilled u)).
Proof.
  unfold mounted, main, on_init, on_session, login_chain.
  destruct init as [[] | e | ]; destruct session as [[u|] | e' | ];
    try destruct (login UID) as [u' | e'' | ] eqn:Hlogin; cbn; split.
  all: try solve [intros _; split; [reflexivity | eauto 6]].
  all: try solve [intros H; exfalso; no_render H].
  all: try solve [intros _; render_found].
  all: intros (Hi & [[u0 Hs] | [Hs [u0 Hl]]]); congruence.
Qed.

(** C4 fails at the session lookup.  When initialisation succeeds and
    the session lookup rejects, the only effect of the script is the
    success message of the initialisation: the application is not
    rendered, and the error reaches no console call.  So not every
    failing step is written to the diagnostic log. *)
Theorem session_lookup_failure_not_logged (e : Error)
    (login : string → Settled User) :
  fails_with (Fulfilled tt) (Rejected e) login e ∧
  effects (main (Fulfilled tt) (Rejected e) login)
  = [ConsoleLog [AStr "CometChat UI Kit initialized successfully."]] ∧
  ¬ mounted (effects (main (Fulfilled tt) (Rejected e) login)) ∧
  ¬ logged e (effects (main (Fulfilled tt) (Rejected e) login)).
Proof.
  assert (Hfail : fails_with (Fulfilled tt) (Rejected e) login e)
    by (by apply session_fails).
  split; [exact Hfail|]. split; [reflexivity|].
  split; [by apply (failure_never_mounts _ _ _ e)|].
  unfold logged. rewrite main_session_rejected.
  rewrite Exists_cons, Exists_nil. cbn.
  rewrite list_elem_of_singleton. intros [Heq | []]. discriminate Heq.
Qed.

End MainSpec.
(** ** Demo screen: histories of events *)

Module ChatDemoEventsSpec.
Import ChatDemo ChatDemoEvents.

(** Induction over histories: a property of the initial state that every
    admissible event preserves holds after every admissible history. *)
Lemma run_invariant (Q : Event → Prop) (P : State → Prop) :
  P initial →
  (∀ st e, Q e → P st → P (step st e)) →
  ∀ es, Forall Q es → P (run es).
Proof.
  intros Hinit Hstep es. unfold run. generalize initial Hinit.
  induction es as [|e es IH]; intros st Hst Hall; [exact Hst|].
  apply Forall_cons in Hall as [He Hes]. cbn. apply IH; [|exact Hes].
  by apply Hstep.
Qed.

Lemma run_snoc (es : list Event) (e : Event) :
  run (es ++ [e]) = step (run es) e.
Proof. unfold run. by rewrite foldl_app. Qed.

(** Split a selector click into the cases its handler distinguishes. *)
Ltac click_cases session activeItem :=
  destruct activeItem as
    [? | ? | [? [? | ? | ]] | [? ? [? | ? | ]] | ];
  destruct session as [[?|] | ? | ];
  cbn; unfold handleCallLogClick_then; cbn;
  try match goal with |- context [String.eqb ?a ?b] =>
        destruct (String.eqb a b); cbn end.

Ltac event_cases e :=
  destruct e as [session activeItem | [] | call | ];
  [click_cases session activeItem | cbn .. ].

(** X1. A click in the selector never touches the outgoing-call slot,
    whatever was clicked and however the session lookup settled. *)
Theorem selector_click_keeps_outgoing_call
    (session : Settled (option User)) (activeItem : Item) (st : State) :
  outgoingCall (step st (SelectorItemClicked session activeItem))
  = outgoingCall st.
Proof. unfold step. click_cases session activeItem; reflexivity. Qed.

Lemma shows_outgoing_call_render (st : State) :
  shows_outgoing_call (render st) = truthy (outgoingCall st).
Proof. destruct st as [[?|] [?|] [?|] [?|]]; reflexivity. Qed.

(** X2. No history of events populates the outgoing-call slot: after
    any sequence of clicks, call events, declines and cancellations the
    slot is undefined, and the rendered tree contains no outgoing-call
    component. *)
Theorem outgoing_call_never_shown (es : list Event) :
  outgoingCall (run es) = None ∧
  shows_outgoing_call (render (run es)) = false.
Proof.
  assert (Hslot : outgoingCall (run es) = None).
  { apply (run_invariant (λ _, True) (λ st, outgoingCall st = None)).
    - reflexivity.
    - intros st e _ Hst. unfold step.
      event_cases e; first [exact Hst | reflexivity].
    - by apply Forall_forall. }
  split; [exact Hslot|].
  by rewrite shows_outgoing_call_render, Hslot.
Qed.

(** X3. After any history of events the user slot and the group slot are
    not both populated, so the message components never receive a user
    and a group together. *)
Theorem user_and_group_exclusive (es : list Event) :
  selectedUser (run es) = None ∨ selectedGroup (run es) = None.
Proof.
  apply (run_invariant (λ _, True)
           (λ st, selectedUser st = None ∨ selectedGroup st = None)).
  - by left.
  - intros st e _ Hst. unfold step.
    event_cases e; first [exact Hst | by left | by right].
  - by apply Forall_forall.
Qed.

(** The pane as a function of the slots. *)
Lemma views_render_cases (st : State) :
  views (render st)
  = [if truthy (selectedUser st) || truthy (selectedGroup st)
     then ConversationView
     else if truthy (selectedCall st) then CallPlaceholder else EmptyPrompt].
Proof. destruct st as [[?|] [?|] [?|] [?|]]; reflexivity. Qed.

(** X4. When every clicked call has a user or a group as its receiver,
    as the SDK types promise, a populated call slot always comes with a
    populated user or group slot; the "Call selected from history"
    placeholder is then never rendered. *)
Theorem call_placeholder_never_shown (es : list Event) :
  Forall (λ e, typed_event e = true) es →
  (is_Some (selectedCall (run es)) →
   is_Some (selectedUser (run es)) ∨ is_Some (selectedGroup (run es))) ∧
  views (render (run es)) ≠ [CallPlaceholder].
Proof.
  intros Htyped.
  assert (Hinv : truthy (selectedCall (run es)) = true →
                 truthy (selectedUser (run es))
                 || truthy (selectedGroup (run es)) = true).
  { revert Htyped.
    apply (run_invariant (λ e, typed_event e = true)
             (λ st, truthy (selectedCall st) = true →
                    truthy (selectedUser st) || truthy (selectedGroup st)
                    = true)).
    - discriminate.
    - intros st e He Hst. unfold step. revert He.
      event_cases e; intros He; first [exact Hst | done]. }
  split.
  - rewrite !is_Some_alt.
    destruct (selectedCall (run es)); [|done]. intros _.
    specialize (Hinv eq_refl).
    destruct (selectedUser (run es)); [by left|].
    destruct (selectedGroup (run es)); [by right | discriminate Hinv].
  - rewrite views_render_cases.
    destruct (truthy (selectedUser (run es)) || truthy (selectedGroup (run es)))
      eqn:Hug; [discriminate|].
    destruct (truthy (selectedCall (run es))); [|discriminate].
    specialize (Hinv eq_refl). congruence.
Qed.

Lemma call_placeholder_never_shown_witness :
  views (render (run [SelectorItemClicked (Fulfilled (Some alice))
                        (ItemCall (call_to alice (EGroup hikers)));
                      CallEventReceived CallEndedMessageReceived]))
  ≠ [CallPlaceholder].
Proof.
  apply call_placeholder_never_shown.
  repeat constructor.
Defined.

(** The hypothesis of X4 is needed: a receiver that is neither a user
    nor a group brings up the placeholder. *)
Lemma call_placeholder_reached_untyped :
  views (render (run [SelectorItemClicked (Fulfilled (Some alice))
                        (ItemCall (call_to alice EOther))]))
  = [CallPlaceholder].
Proof. reflexivity. Qed.

(** X5. Call events, declining an incoming call and cancelling an
    outgoing call leave the three selection slots as they are, and with
    them the pane that is displayed. *)
Theorem call_handlers_keep_selection (st : State) (e : Event) :
  (∀ session activeItem, e ≠ SelectorItemClicked session activeItem) →
  selectedUser (step st e) = selectedUser st ∧
  selectedGroup (step st e) = selectedGroup st ∧
  selectedCall (step st e) = selectedCall st ∧
  messages_pane (step st e) = messages_pane st.
Proof.
  intros Hcall. destruct e as [session activeItem | [] | call | ];
    [by destruct (Hcall session activeItem) | by repeat split ..].
Qed.

Lemma call_handlers_keep_selection_witness :
  messages_pane (step busy (IncomingCallDeclined (call_to bob (EUser alice))))
  = messages_pane busy.
Proof.
  apply (call_handlers_keep_selection busy
           (IncomingCallDeclined (call_to bob (EUser alice)))).
  discriminate.
Defined.

(** X6. The session lookup matters for call-log entries only: a click on
    a user, a group or a conversation queues the same setter calls
    however the lookup settles, and a click on a call-log entry whose
    lookup is rejected or never settles changes no slot, not even the
    call slot. *)
Theorem session_lookup_only_for_calls (st : State) :
  (∀ session session' activeItem,
     (∀ c, activeItem ≠ ItemCall c) →
     onSelectorItemClicked session activeItem
     = onSelectorItemClicked session' activeItem) ∧
  (∀ err c, step st (SelectorItemClicked (Rejected err) (ItemCall c)) = st) ∧
  (∀ c, step st (SelectorItemClicked Pending (ItemCall c)) = st).
Proof.
  split; [|by split].
  intros session session' activeItem Hitem.
  destruct activeItem as [? | ? | [? [? | ? | ]] | c | ]; try reflexivity.
  by destruct (Hitem c).
Qed.

Lemma session_lookup_only_for_calls_witness :
  onSelectorItemClicked (Rejected "offline") (ItemUser bob)
  = onSelectorItemClicked (Fulfilled (Some alice)) (ItemUser bob) ∧
  step busy (SelectorItemClicked (Rejected "offline")
               (ItemCall (call_to alice (EUser bob)))) = busy.
Proof.
  destruct (session_lookup_only_for_calls busy) as (Hany & Hrej & _).
  split; [apply Hany; discriminate | apply Hrej].
Defined.

(** X7. Every event is idempotent: handling the same event a second time
    right after the first leaves the state as the first left it. *)
Theorem event_idempotent (st : State) (e : Event) :
  step (step st e) e = step st e.
Proof. unfold step. event_cases e; reflexivity. Qed.

(** X8. Once a user is selected the pane is the conversation view and its
    header, message list and composer all get that user and no group,
    whatever was selected before; likewise for a group, which comes with
    no user. *)
Theorem selection_shows_conversation
    (session : Settled (option User)) (st : State) :
  (∀ u, messages_pane (step st (SelectorItemClicked session (ItemUser u)))
        = Div "messages-wrapper"
            [CometChatMessageHeader (Some u) None;
             CometChatMessageList (Some u) None;
             CometChatMessageComposer (Some u) None]) ∧
  (∀ g, messages_pane (step st (SelectorItemClicked session (ItemGroup g)))
        = Div "messages-wrapper"
            [CometChatMessageHeader None (Some g);
             CometChatMessageList None (Some g);
             CometChatMessageComposer None (Some g)]).
Proof. by split. Qed.

(** The participant a call-log entry stands for, seen from [me]. *)
Lemma other_participant_pane (me : User) (call : Call) (st : State) :
  typed_receiver call = true →
  messages_pane
    (step st (SelectorItemClicked (Fulfilled (Some me)) (ItemCall call)))
  = let shown :=
      if String.eqb (getUid (getCallInitiator call)) (getUid me)
      then getCallReceiver call
      else EUser (getCallInitiator call) in
    let user := match shown with EUser u => Some u | _ => None end in
    let group := match shown with EGroup g => Some g | _ => None end in
    Div "messages-wrapper"
      [CometChatMessageHeader user group;
       CometChatMessageList user group;
       CometChatMessageComposer user group].
Proof.
  destruct call as [sid ini [r | g | ]]; [| |discriminate]; intros _;
    unfold step; cbn; unfold handleCallLogClick_then; cbn;
    destruct (String.eqb (getUid ini) (getUid me)); reflexivity.
Qed.

(** X9. A click on a call-log entry, with a logged-in user and a receiver
    that is a user or a group, always brings up the conversation view:
    with the receiver when the logged-in user made the call, with the
    initiator otherwise, and never with a user and a group together. *)
Theorem call_log_click_shows_other_participant
    (me : User) (call : Call) (st : State) :
  typed_receiver call = true →
  ∃ user group,
    messages_pane
      (step st (SelectorItemClicked (Fulfilled (Some me)) (ItemCall call)))
    = Div "messages-wrapper"
        [CometChatMessageHeader user group;
         CometChatMessageList user group;
         CometChatMessageComposer user group] ∧
    (getUid (getCallInitiator call) = getUid me →
       (∀ r, getCallReceiver call = EUser r → user = Some r ∧ group = None) ∧
       (∀ g, getCallReceiver call = EGroup g → user = None ∧ group = Some g)) ∧
    (getUid (getCallInitiator call) ≠ getUid me →
       user = Some (getCallInitiator call) ∧ group = None).
Proof.
  intros Htyped. eexists _, _.
  split; [by apply other_participant_pane|].
  split.
  - intros Hsame. rewrite Hsame, String.eqb_refl.
    split; intros x Hrecv; by rewrite Hrecv.
  - intros Hdiff. apply String.eqb_neq in Hdiff. by rewrite Hdiff.
Qed.

Lemma call_log_click_shows_other_participant_witness :
  ∃ user group,
    messages_pane
      (step busy (SelectorItemClicked (Fulfilled (Some alice))
                    (ItemCall (call_to bob (EGroup hikers)))))
    = Div "messages-wrapper"
        [CometChatMessageHeader user group;
         CometChatMessageList user group;
         CometChatMessageComposer user group] ∧
    user = Some bob ∧ group = None.
Proof.
  destruct (call_log_click_shows_other_participant alice
              (call_to bob (EGroup hikers)) busy eq_refl)
    as (user & group & Hpane & _ & Hdiff).
  exists user, group. split; [exact Hpane|]. apply Hdiff. discriminate.
Defined.

(** *** Listener identifiers *)






End ChatDemoEventsSpec.
(** ** Landing page: click histories and rendered items *)

Module LandingPageViewSpec.
Import LandingPage LandingPageView.

Lemma initial_live : store initial !! openItems initial = Some ∅.
Proof. unfold initial, set_new. cbn. apply lookup_insert_eq. Qed.

(** Membership after one toggle. *)
Lemma toggled_member (id x : string) (s : gset string) :
  bool_decide (x ∈ toggled id s)
  = xorb (bool_decide (x ∈ s)) (bool_decide (x = id)).
Proof.
  unfold toggled.
  destruct (decide (x = id)) as [-> | Hne].
  - rewrite (bool_decide_eq_true_2 (id = id)) by done.
    destruct (decide (id ∈ s)) as [Hin | Hout].
    + rewrite (bool_decide_eq_true_2 _ Hin). cbn.
      apply bool_decide_eq_false_2.
      rewrite elem_of_difference, elem_of_singleton. intuition.
    + rewrite (bool_decide_eq_false_2 _ Hout). cbn.
      apply bool_decide_eq_true_2.
      rewrite elem_of_union, elem_of_singleton. by left.
  - rewrite (bool_decide_eq_false_2 (x = id)) by done.
    rewrite xorb_false_r. apply bool_decide_ext.
    apply LandingPageSpec.toggled_other. congruence.
Qed.

Lemma click_count_cons (id x : string) (ids : list string) :
  click_count id (x :: ids)
  = (if bool_decide (x = id) then 1 else 0) + click_count id ids.
Proof.
  unfold click_count. rewrite filter_cons.
  case_decide; case_bool_decide; done.
Qed.

(** The set held after a history of clicks on a live page. *)
Lemma clicks_run (ids : list string) (p : Page) (s : gset string) :
  store p !! openItems p = Some s →
  ∃ p' s',
    clicks ids p = Some p' ∧
    store p' !! openItems p' = Some s' ∧
    ∀ id, bool_decide (id ∈ s')
          = xorb (bool_decide (id ∈ s)) (Nat.odd (click_count id ids)).
Proof.
  revert p s. induction ids as [|x ids IH]; intros p s Hlive.
  - exists p, s. repeat split; [done|]. intros id. cbn.
    by rewrite xorb_false_r.
  - cbn [clicks]. rewrite (LandingPageSpec.toggleItem_run x p s Hlive).
    cbn [mbind option_bind].
    destruct (IH {| openItems := fresh (dom (store p));
                    store := <[fresh (dom (store p)) := toggled x s]> (store p) |}
                 (toggled x s)) as (p' & s' & Hrun & Hlive' & Hmem).
    { cbn. apply lookup_insert_eq. }
    exists p', s'. split; [exact Hrun|]. split; [exact Hlive'|].
    intros id. rewrite Hmem, toggled_member, click_count_cons.
    destruct (decide (x = id)) as [-> | Hne].
    + rewrite (bool_decide_eq_true_2 (id = id)) by done.
      rewrite Nat.add_1_l, Nat.odd_succ, <- Nat.negb_odd.
      by destruct (bool_decide (id ∈ s)), (Nat.odd (click_count id ids)).
    + rewrite (bool_decide_eq_false_2 (id = x)) by congruence.
      rewrite (bool_decide_eq_false_2 (x = id)) by done.
      by rewrite Nat.add_0_l, xorb_false_r.
Qed.

(** X11. Starting from the page as first rendered, any history of header
    clicks goes through, and afterwards an item is open exactly when its
    header was clicked an odd number of times. *)
Theorem open_iff_clicked_odd_times (ids : list string) (id : string) :
  ∃ p,
    clicks ids initial = Some p ∧
    isOpen p id = Some (Nat.odd (click_count id ids)).
Proof.
  destruct (clicks_run ids initial ∅ initial_live)
    as (p & s & Hrun & Hlive & Hmem).
  exists p. split; [exact Hrun|].
  rewrite (LandingPageSpec.isOpen_eq p id s Hlive), Hmem.
  by rewrite bool_decide_eq_false_2 by apply not_elem_of_empty.
Qed.

Lemma open_flags_live (p : Page) (s : gset string) (l : list string) :
  store p !! openItems p = Some s →
  mapM (λ id, b ← isOpen p id; Some (id, b)) l
  = Some (map (λ id, (id, bool_decide (id ∈ s))) l).
Proof.
  intros Hlive. induction l as [|x l IH]; [done|].
  cbn. rewrite (LandingPageSpec.isOpen_eq p x s Hlive). cbn.
  by rewrite IH.
Qed.

(** X12. The item identifiers of the three sections are pairwise
    distinct, and a click on the header of item [i] negates the open flag
    of the items whose identifier is [i] and of no other rendered item. *)
Theorem header_click_flips_only_its_item (p : Page) (i : string)
    (flags : list (string * bool)) :
  open_flags p = Some flags →
  NoDup rendered_ids ∧
  ∃ p',
    toggleItem i p = Some p' ∧
    open_flags p'
    = Some (map (λ e, (e.1, if bool_decide (e.1 = i) then negb e.2 else e.2))
              flags).
Proof.
  intros Hflags. split.
  { apply (bool_decide_unpack _). by vm_compute. }
  assert (Hlive : ∃ s, store p !! openItems p = Some s).
  { unfold open_flags, rendered_ids in Hflags. cbn in Hflags.
    destruct (isOpen p "good-1") as [b|] eqn:Hopen; [|discriminate Hflags].
    destruct (LandingPageSpec.isOpen_live _ _ _ Hopen) as (s & Hs & _).
    by exists s. }
  destruct Hlive as [s Hlive].
  unfold open_flags in Hflags. rewrite (open_flags_live p s _ Hlive) in Hflags.
  assert (Hf : flags = map (λ id, (id, bool_decide (id ∈ s))) rendered_ids)
    by congruence.
  subst flags.
  eexists. split; [by apply (LandingPageSpec.toggleItem_run i p s)|].
  unfold open_flags. erewrite open_flags_live by (cbn; apply lookup_insert_eq).
  f_equal. rewrite map_map. apply map_ext. intros x. cbn.
  rewrite toggled_member. f_equal.
  by destruct (bool_decide (x ∈ s)), (bool_decide (x = i)).
Qed.

Lemma header_click_flips_only_its_item_witness :
  ∃ p',
    toggleItem "ux-2" initial = Some p' ∧
    open_flags p'
    = Some (map (λ e, (e.1, if bool_decide (e.1 = "ux-2") then negb e.2
                             else e.2))
              (map (λ id, (id, false)) rendered_ids)).
Proof.
  assert (H : open_flags initial = Some (map (λ id, (id, false)) rendered_ids))
    by (vm_compute; reflexivity).
  exact (proj2 (header_click_flips_only_its_item initial "ux-2" _ H)).
Defined.

(** X13. An optional block is rendered for a field only when the field
    has something to show: no image without a source, no code block and
    no example for an empty string.  An item never has more than four
    blocks.  An images array, even an empty one, does get its
    container. *)
Theorem no_empty_blocks (item : DXItem) :
  (ImageBlock "" ∉ content_blocks item) ∧
  (CodeBlock "" ∉ content_blocks item) ∧
  (ExampleBlock "" ∉ content_blocks item) ∧
  (List.length (content_blocks item) ≤ 4)%nat ∧
  (∀ imgs, images item = Some imgs → ImagesBlock imgs ∈ content_blocks item).
Proof.
  unfold content_blocks, when_string, when_array.
  destruct item as [i t d [[|a ex]|] [[|b im]|] [ims|] [[|c cb]|]]; cbn;
    repeat split; try lia;
    rewrite ?elem_of_cons, ?elem_of_nil; try (intuition discriminate);
    intros imgs [= <-]; rewrite ?elem_of_cons; intuition.
Qed.

(** *** Description markup *)

Local Open Scope nat_scope.
Local Open Scope list_scope.

Lemma marker_spec (s rest : list N) :
  marker s = Some rest ↔ s = star :: star :: rest.
Proof.
  unfold marker. destruct s as [|a [|b s']]; try (split; discriminate).
  destruct (N.eqb_spec a star) as [-> | Ha];
    destruct (N.eqb_spec b star) as [-> | Hb]; cbn;
    split; intros [=]; subst; done.
Qed.

Lemma marker_not_star (c : N) (s : list N) : c ≠ star → marker (c :: s) = None.
Proof.
  intros Hc. destruct (marker (c :: s)) as [rest|] eqn:Hm; [|done].
  apply marker_spec in Hm. congruence.
Qed.

Lemma marker_second_not_star (c : N) (s : list N) :
  c ≠ star → marker (star :: c :: s) = None.
Proof.
  intros Hc. destruct (marker (star :: c :: s)) as [rest|] eqn:Hm; [|done].
  apply marker_spec in Hm. congruence.
Qed.

Lemma plain_spec (c : N) :
  plain c = true ↔ c ≠ star ∧ is_line_terminator c = false.
Proof.
  unfold plain. rewrite andb_true_iff, !negb_true_iff, N.eqb_neq. done.
Qed.

Lemma line_terminator_not_star (c : N) :
  is_line_terminator c = true → c ≠ star.
Proof. intros Hc ->. discriminate Hc. Qed.

(** A match takes at least the two markers off the input. *)
Lemma lazy_group_length (s group rest : list N) :
  lazy_group s = Some (group, rest) →
  length s = length group + 2 + length rest.
Proof.
  revert group. induction s as [|c s IH]; intros group; cbn [lazy_group].
  - cbn. discriminate.
  - destruct (marker (c :: s)) as [r|] eqn:Hm.
    + intros [= <- <-]. apply marker_spec in Hm. rewrite Hm. cbn. lia.
    + destruct (is_line_terminator c); [discriminate|].
      destruct (lazy_group s) as [[g r]|]; [|discriminate].
      cbn. intros [= <- <-]. rewrite (IH g eq_refl). cbn. lia.
Qed.

Lemma match_here_length (s group rest : list N) :
  match_here s = Some (group, rest) → length rest < length s.
Proof.
  unfold match_here. destruct (marker s) as [r|] eqn:Hm; [|discriminate].
  cbn. intros Hg. apply marker_spec in Hm. apply lazy_group_length in Hg.
  rewrite Hm. cbn. lia.
Qed.

(** The scan never runs out of rounds: any budget of at least the
    length of the input gives the same result. *)
Lemma replace_from_enough (n m : nat) (s : list N) :
  length s ≤ n → length s ≤ m → replace_from n s = replace_from m s.
Proof.
  revert m s. induction n as [|n IH]; intros m s Hn Hm.
  - destruct s; [|cbn in Hn; lia]. by destruct m.
  - destruct s as [|c s]; [by destruct m|].
    destruct m as [|m]; [cbn in Hm; lia|].
    cbn [replace_from]. cbn in Hn, Hm.
    destruct (match_here (c :: s)) as [[g r]|] eqn:Hmatch.
    + apply match_here_length in Hmatch. cbn in Hmatch.
      do 3 f_equal. apply IH; lia.
    + f_equal. apply IH; lia.
Qed.

Lemma replace_bold_enough (n : nat) (s : list N) :
  length s ≤ n → replace_from n s = replace_bold s.
Proof. intros Hn. by apply replace_from_enough. Qed.

(** One round of the scan. *)
Lemma replace_from_round (n : nat) (c : N) (s : list N) :
  replace_from (S n) (c :: s)
  = match match_here (c :: s) with
    | Some (group, rest) =>
        units "<strong>" ++ group ++ units "</strong>" ++ replace_from n rest
    | None => c :: replace_from n s
    end.
Proof. reflexivity. Qed.

(** Units before the first asterisk are copied. *)
Lemma replace_from_copy (pre t : list N) (n : nat) :
  Forall (λ c, c ≠ star) pre →
  replace_from (length pre + n) (pre ++ t) = pre ++ replace_from n t.
Proof.
  induction 1 as [|c pre Hc _ IH]; [done|].
  cbn [length Nat.add app]. rewrite replace_from_round.
  unfold match_here. rewrite (marker_not_star c _ Hc).
  cbn [mbind option_bind]. by rewrite IH.
Qed.

Lemma lazy_group_plain (x post : list N) :
  Forall (λ c, plain c = true) x →
  lazy_group (x ++ star :: star :: post) = Some (x, post).
Proof.
  induction 1 as [|c x Hc _ IH]; [done|].
  apply plain_spec in Hc as [Hstar Hterm].
  cbn [app lazy_group]. rewrite (marker_not_star c _ Hstar), Hterm, IH. done.
Qed.

Lemma lazy_group_broken (x t : list N) (c : N) :
  Forall (λ u, u ≠ star) x →
  is_line_terminator c = true →
  lazy_group (x ++ c :: t) = None.
Proof.
  intros Hx Hc. induction Hx as [|u x Hu _ IH].
  - cbn [app lazy_group].
    rewrite (marker_not_star c _ (line_terminator_not_star c Hc)).
    by rewrite Hc.
  - cbn [app lazy_group]. rewrite (marker_not_star u _ Hu), IH.
    by destruct (is_line_terminator u).
Qed.

Lemma marker_free_no_match (n : nat) (s : list N) :
  marker_free s = true → replace_from n s = s.
Proof.
  revert s. induction n as [|n IH]; intros s Hfree; [done|].
  destruct s as [|c s]; [done|].
  cbn [replace_from]. cbn [marker_free] in Hfree. unfold match_here.
  destruct (marker (c :: s)); [discriminate|]. cbn. by rewrite IH.
Qed.

(** X14. A description without two adjacent asterisks is inserted as it
    is: not a single unit is changed, added or escaped. *)
Theorem replace_bold_without_markers (s : list N) :
  marker_free s = true → replace_bold s = s.
Proof. apply marker_free_no_match. Qed.

Lemma replace_bold_without_markers_witness :
  replace_bold (units "<b>Quick</b> & easy * 2") = units "<b>Quick</b> & easy * 2".
Proof. apply replace_bold_without_markers. reflexivity. Defined.

(** X15. The first pair of markers on a line: when the text before the
    opening marker has no asterisk and the text between the markers has
    neither an asterisk nor a line terminator, the two markers are
    replaced by the opening and the closing tag, the text in between and
    before is kept, and the replacement goes on after the closing
    marker. *)
Theorem replace_bold_first_pair (pre x post : list N) :
  Forall (λ c, c ≠ star) pre →
  Forall (λ c, plain c = true) x →
  replace_bold (pre ++ star :: star :: x ++ star :: star :: post)
  = pre ++ units "<strong>" ++ x ++ units "</strong>" ++ replace_bold post.
Proof.
  intros Hpre Hx. unfold replace_bold at 1.
  rewrite length_app. rewrite (replace_from_copy pre _ _ Hpre). f_equal.
  cbn [length]. rewrite replace_from_round. unfold match_here.
  rewrite (proj2 (marker_spec _ _) eq_refl). cbn [mbind option_bind].
  rewrite (lazy_group_plain x post Hx). do 3 f_equal.
  apply replace_bold_enough. rewrite length_app. cbn [length]. lia.
Qed.

Lemma replace_bold_first_pair_witness :
  replace_bold (units "Use " ++ star :: star :: units "npm install"
                ++ star :: star :: units " or yarn")
  = units "Use " ++ units "<strong>" ++ units "npm install"
    ++ units "</strong>" ++ replace_bold (units " or yarn").
Proof.
  apply replace_bold_first_pair.
  - apply (bool_decide_unpack _). vm_compute. reflexivity.
  - apply (bool_decide_unpack _). vm_compute. reflexivity.
Defined.

(** X16. Markers are not paired across a line break: an opening marker
    whose line ends before any further asterisk, and a closing marker at
    the very end of the next line, both stay in the text as asterisks. *)
Theorem replace_bold_across_line_break (x y : list N) (c : N) :
  Forall (λ u, u ≠ star) x →
  Forall (λ u, u ≠ star) y →
  is_line_terminator c = true →
  replace_bold (star :: star :: x ++ c :: y ++ [star; star])
  = star :: star :: x ++ c :: y ++ [star; star].
Proof.
  intros Hx Hy Hc.
  assert (Hxy : Forall (λ u, u ≠ star) (x ++ c :: y)).
  { apply Forall_app. split; [exact Hx|].
    constructor; [by apply line_terminator_not_star | exact Hy]. }
  unfold replace_bold. cbn [length]. rewrite replace_from_round.
  unfold match_here at 1.
  rewrite (proj2 (marker_spec _ _) eq_refl). cbn [mbind option_bind].
  rewrite (lazy_group_broken x _ c Hx Hc). f_equal.
  replace (x ++ c :: y ++ [star; star]) with ((x ++ c :: y) ++ [star; star])
    by (by rewrite <- app_assoc).
  rewrite length_app. cbn [length].
  replace (length (x ++ c :: y) + 2) with (S (length (x ++ c :: y) + 1)) by lia.
  rewrite replace_from_round. unfold match_here.
  assert (Hsecond : marker (star :: (x ++ c :: y) ++ [star; star]) = None).
  { destruct x as [|u x]; cbn [app].
    - apply marker_second_not_star. by apply line_terminator_not_star.
    - apply marker_second_not_star. by inversion Hx. }
  rewrite Hsecond. cbn [mbind option_bind]. f_equal.
  replace (S (length (x ++ c :: y) + 1)) with (length (x ++ c :: y) + 2) by lia.
  by rewrite (replace_from_copy _ _ _ Hxy).
Qed.

Lemma replace_bold_across_line_break_witness :
  replace_bold (star :: star :: units "no" ++ 10%N :: units "close"
                ++ [star; star])
  = star :: star :: units "no" ++ 10%N :: units "close" ++ [star; star].
Proof.
  apply replace_bold_across_line_break.
  - apply (bool_decide_unpack _). vm_compute. reflexivity.
  - apply (bool_decide_unpack _). vm_compute. reflexivity.
  - reflexivity.
Defined.

End LandingPageViewSpec.
(** ** Bootstrap script: runs *)

Module MainRunsSpec.
Import Main MainRuns.

Local Open Scope nat_scope.

(** Case analysis on how the three promises settle. *)
Ltac settle init session login :=
  destruct init as [[] | ? | ];
  destruct session as [[?|] | ? | ];
  try (let H := fresh "Hlogin" in destruct (login UID) eqn:H).

Lemma main_effects_login (init : Settled unit)
    (session : Settled (option User)) (login login' : string → Settled User) :
  login UID = login' UID →
  main init session login = main init session login'.
Proof.
  intros Heq. unfold main, on_init, on_session, login_chain. by rewrite Heq.
Qed.

(** X17. The application is rendered at most once, and it is rendered
    exactly when initialisation succeeds and either a session exists or
    the login succeeds. *)
Theorem rendered_once_iff_chain_completes (init : Settled unit)
    (session : Settled (option User)) (login : string → Settled User) :
  renders (effects (main init session login)) ≤ 1 ∧
  (renders (effects (main init session login)) = 1 ↔
   init = Fulfilled tt ∧
   ((∃ u, session = Fulfilled (Some u)) ∨
    (session = Fulfilled None ∧ ∃ u, login UID = Fulfilled u))).
Proof.
  unfold renders, main, on_init, on_session, login_chain.
  settle init session login; cbn; (split; [lia|]); split.
  all: try solve [intros _; split; [reflexivity | eauto 6]].
  all: try solve [intros H; discriminate H].
  all: try solve [intros _; reflexivity].
  all: intros (Hi & [[u0 Hs] | [Hs [u0 Hl]]]); congruence.
Qed.

(** X18. There is no timeout: when a step that is reached never settles,
    the run renders nothing and prints no error; all it may have printed
    is the message that initialisation succeeded. *)
Theorem stalled_chain_stays_blank (init : Settled unit)
    (session : Settled (option User)) (login : string → Settled User) :
  stalls init session login →
  renders (effects (main init session login)) = 0 ∧
  List.filter is_console_error (effects (main init session login)) = [] ∧
  (effects (main init session login) = [] ∨
   effects (main init session login) = [init_success]).
Proof.
  unfold main, on_init, on_session, login_chain.
  intros [-> | -> -> | -> -> Hlogin]; try rewrite Hlogin; cbn; eauto.
Qed.

Lemma stalled_chain_stays_blank_witness :
  renders (effects (main (Fulfilled tt) (Fulfilled None) (λ _, Pending))) = 0.
Proof.
  apply (stalled_chain_stays_blank (Fulfilled tt) (Fulfilled None)
           (λ _, Pending)).
  by apply login_stalls.
Defined.

(** X19. The script logs in only when initialisation succeeded and the
    session lookup answered that nobody is logged in; in every other
    case the run is the same whatever a login would do.  When it does
    log in, it is with the one hard-wired identifier: the run depends on
    the login of that identifier only. *)
Theorem login_only_without_session (init : Settled unit)
    (session : Settled (option User)) (login login' : string → Settled User) :
  (reaches_login init session = false →
   main init session login = main init session login') ∧
  (login "cometchat-uid-1" = login' "cometchat-uid-1" →
   main init session login = main init session login').
Proof.
  split; [|apply main_effects_login].
  destruct init as [[] | ? | ]; destruct session as [[?|] | ? | ];
    try reflexivity; discriminate.
Qed.

Lemma login_only_without_session_witness :
  main (Fulfilled tt) (Fulfilled (Some ChatDemo.alice)) (λ _, Rejected "denied")
  = main (Fulfilled tt) (Fulfilled (Some ChatDemo.alice)) (λ _, Pending).
Proof.
  destruct (login_only_without_session (Fulfilled tt)
              (Fulfilled (Some ChatDemo.alice))
              (λ _, Rejected "denied") (λ _, Pending)) as [Hskip _].
  apply Hskip. reflexivity.
Defined.

(** X20. A rejected initialisation and a rejected login are both written
    to the console with the error among the arguments, the first through
    [console.error] and the second through [console.log], and nothing is
    rendered. *)
Theorem init_and_login_failures_logged (init : Settled unit)
    (session : Settled (option User)) (login : string → Settled User)
    (e : Error) :
  fails_with init session login e →
  session ≠ Rejected e ∨ init = Rejected e →
  logged e (effects (main init session login)) ∧
  renders (effects (main init session login)) = 0 ∧
  (init = Rejected e →
   effects (main init session login)
   = [ConsoleError [AStr "CometChat UI Kit initialization failed:"; AError e]]) ∧
  (init = Fulfilled tt →
   effects (main init session login) = [init_success; ConsoleLog [AError e]]).
Proof.
  intros Hfail Hnot.
  destruct Hfail as [-> | -> -> | -> -> Hlogin].
  - split; [apply MainSpec.init_failure_logged|].
    split; [reflexivity|]. split; [reflexivity | discriminate].
  - destruct Hnot as [Hnot | Hnot]; [by destruct Hnot | discriminate Hnot].
  - split; [by apply MainSpec.login_failure_logged|].
    rewrite (MainSpec.main_login_rejected e login Hlogin).
    split; [reflexivity|]. split; [discriminate | reflexivity].
Qed.

Lemma init_and_login_failures_logged_witness :
  logged "denied"
    (effects (main (Fulfilled tt) (Fulfilled None) (λ _, Rejected "denied"))) ∧
  logged "no such app"
    (effects (main (Rejected "no such app") Pending (λ _, Pending))).
Proof.
  split.
  - apply (init_and_login_failures_logged (Fulfilled tt) (Fulfilled None)
             (λ _, Rejected "denied") "denied").
    + by apply login_fails.
    + left. discriminate.
  - apply (init_and_login_failures_logged (Rejected "no such app") Pending
             (λ _, Pending) "no such app").
    + by apply init_fails.
    + by right.
Defined.

End MainRunsSpec.
